(** * App.tsx: image intake, request assembly and the estimate flow

    A shallow embedding of the component [App] of [src/App.tsx].  The four
    [useState] cells become the record [AppState]; every event handler
    becomes a function on that record.  The two places where the handlers
    wait for the environment are made explicit:

    - [handleImageUpload] starts one [FileReader] per file; the order in
      which their [onloadend] callbacks run is an input ([Completion] list);
    - [getEstimate] suspends at its single [await]; [getEstimate_begin] is
      the code up to the suspension, [getEstimate_resume] the code after it,
      driven by the [Outcome] of the promise.

    JavaScript strings are modelled as [string] (UTF-8 bytes).  The only
    string operation the code performs, [split(',')], cuts at an ASCII
    comma, which never occurs inside a multi-byte sequence. *)

From Stdlib Require Import List String Ascii Bool Arith Lia.
From Stdlib Require Import Permutation.
Import ListNotations.
Open Scope string_scope.
Open Scope list_scope.

(** ** Data model ([types.ts] part of the source) *)

(** The DOM [File]: only [name] and [type] are observed by the component. *)
Record File := mkFile {
  name : string;
  type : string
}.

(** [FileWithPreview].  [preview] is [reader.result as string]: the cast is
    erased at run time, and a reader whose read failed has [result === null],
    hence the [option]. *)
Record FileWithPreview := mkFileWithPreview {
  id : string;
  file : File;
  preview : option string
}.

Record EstimationResult := mkEstimationResult {
  text : string
}.

(** [GeminiImagePart].  [data] is [split(',')[1]], which is [undefined]
    when the string has no comma. *)
Record InlineData := mkInlineData {
  mimeType : string;
  data : option string
}.

Record GeminiImagePart := mkGeminiImagePart {
  inlineData : InlineData
}.

(** The four state cells of the component (lines 13-16). *)
Record AppState := mkAppState {
  uploadedImages : list FileWithPreview;
  estimationResult : option EstimationResult;
  isLoading : bool;
  error : option string
}.

Definition initialState : AppState :=
  mkAppState [] None false None.

Definition setUploadedImages (v : list FileWithPreview) (st : AppState) : AppState :=
  mkAppState v (estimationResult st) (isLoading st) (error st).

Definition setEstimationResult (v : option EstimationResult) (st : AppState) : AppState :=
  mkAppState (uploadedImages st) v (isLoading st) (error st).

Definition setIsLoading (v : bool) (st : AppState) : AppState :=
  mkAppState (uploadedImages st) (estimationResult st) v (error st).

Definition setError (v : option string) (st : AppState) : AppState :=
  mkAppState (uploadedImages st) (estimationResult st) (isLoading st) v.

(** What the source imports but does not define: the build-time credential,
    the prompt constant of [constants.ts], and the text the JavaScript engine
    puts in the [TypeError] raised by [null.split]. *)
Record Env := mkEnv {
  VITE_GEMINI_API_KEY : option string;
  DEMOLITION_ESTIMATE_PROMPT : string;
  nullSplitMessage : string
}.

(** JavaScript truthiness of [import.meta.env.VITE_GEMINI_API_KEY]:
    [undefined] and the empty string are falsy. *)
Definition truthy (v : option string) : bool :=
  match v with
  | None => false
  | Some EmptyString => false
  | Some (String _ _) => true
  end.

(** ** The user-facing messages (string literals of the source) *)

Definition msgNoImages : string := "画像を1枚以上アップロードしてください。".
Definition msgNoApiKey : string :=
  "APIキーが設定されていません。環境変数 API_KEY を設定してください。".
Definition msgErrorPrefix : string := "現調中にエラーが発生しました: ".
Definition msgUnknownError : string := "現調中に不明なエラーが発生しました。".

(** ** handleImageUpload (lines 18-38) *)

(** One [onloadend] event: the file the callback closes over, the reader's
    [result] at that moment and the value [crypto.randomUUID()] returns. *)
Record Completion := mkCompletion {
  done_file : File;
  reader_result : option string;
  uuid : string
}.

(** The object pushed at lines 25-29. *)
Definition image_of (c : Completion) : FileWithPreview :=
  mkFileWithPreview (uuid c) (done_file c) (reader_result c).

(** Body of the [onloadend] callback.  [newImages] is the array shared by
    the callbacks of one batch; [filesLength] is [files.length]. *)
Definition onloadend (filesLength : nat)
    (s : list FileWithPreview * AppState) (c : Completion)
    : list FileWithPreview * AppState :=
  let newImages := fst s ++ [image_of c] in
  let st := snd s in
  if Nat.eqb (List.length newImages) filesLength
  then (newImages,
        setUploadedImages (firstn 10 (uploadedImages st ++ newImages)) st)
  else (newImages, st).

(** [files] is [event.target.files], which may be [null].  [completions]
    lists the [onloadend] events of the batch in the order they fire. *)
Definition handleImageUpload (files : option (list File))
    (completions : list Completion) (st : AppState) : AppState :=
  match files with
  | None => st
  | Some fs => snd (fold_left (onloadend (List.length fs)) completions ([], st))
  end.

(** ** handleRemoveImage (lines 40-42) *)

(** The predicate [img => img.id !== imageId]. *)
Definition keeps (imageId : string) (img : FileWithPreview) : bool :=
  negb (String.eqb (id img) imageId).

Definition handleRemoveImage (imageId : string) (st : AppState) : AppState :=
  setUploadedImages (filter (keeps imageId) (uploadedImages st)) st.

(** ** Request assembly (lines 74-79) *)

(** [s.split(',')]: the segments of [s] between commas; never empty. *)
Fixpoint split_comma (s : string) : list string :=
  match s with
  | EmptyString => [EmptyString]
  | String c rest =>
      if Ascii.eqb c ","%char
      then EmptyString :: split_comma rest
      else match split_comma rest with
           | [] => [String c EmptyString]
           | seg :: segs => String c seg :: segs
           end
  end.

(** The arrow function of the [map] at line 74.  [None] stands for the
    [TypeError] of [img.preview.split] on a [null] preview. *)
Definition imagePart (img : FileWithPreview) : option GeminiImagePart :=
  match preview img with
  | None => None
  | Some p =>
      Some (mkGeminiImagePart
              (mkInlineData (type (file img)) (nth_error (split_comma p) 1)))
  end.

(** [uploadedImages.map(...)]: the first throwing element aborts the map. *)
Fixpoint imageParts (imgs : list FileWithPreview) : option (list GeminiImagePart) :=
  match imgs with
  | [] => Some []
  | img :: rest =>
      match imagePart img with
      | None => None
      | Some part =>
          match imageParts rest with
          | None => None
          | Some parts => Some (part :: parts)
          end
      end
  end.

(** The arguments of one [generateDemolitionEstimate] call (line 81). *)
Record NetCall := mkNetCall {
  call_prompt : string;
  call_parts : list GeminiImagePart
}.

(** ** getEstimate (lines 44-93) *)

(** What a [catch] clause can receive: an [Error] instance with its
    [message], or any other thrown value. *)
Inductive Thrown :=
| ErrorObject (message : string)
| OtherValue.

(** How the awaited promise settles. *)
Inductive Outcome :=
| Resolved (resultText : string)
| Rejected (err : Thrown).

(** Where [getEstimate] stands when it gives control back: it has returned,
    or it is suspended at the [await] of line 81 on the given call. *)
Inductive Suspension :=
| Returned
| Awaiting (call : NetCall).

(** Lines 50-52. *)
Definition enterLoading (st : AppState) : AppState :=
  setEstimationResult None (setError None (setIsLoading true st)).

(** Lines 57-70: the credential check; the early [return] is commented out
    in the source, so control always continues to the [try]. *)
Definition checkApiKey (env : Env) (st : AppState) : AppState :=
  if negb (truthy (VITE_GEMINI_API_KEY env))
  then setIsLoading false (setError (Some msgNoApiKey) st)
  else st.

(** Lines 83-89. *)
Definition catchBlock (err : Thrown) (st : AppState) : AppState :=
  match err with
  | ErrorObject message => setError (Some (msgErrorPrefix ++ message)%string) st
  | OtherValue => setError (Some msgUnknownError) st
  end.

(** Lines 90-92. *)
Definition finallyBlock (st : AppState) : AppState :=
  setIsLoading false st.

(** [getEstimate] from its entry to its first suspension or return. *)
Definition getEstimate_begin (env : Env) (st : AppState) : AppState * Suspension :=
  if Nat.eqb (List.length (uploadedImages st)) 0
  then (setError (Some msgNoImages) st, Returned)
  else
    let st' := checkApiKey env (enterLoading st) in
    match imageParts (uploadedImages st) with
    | Some parts =>
        (st', Awaiting (mkNetCall (DEMOLITION_ESTIMATE_PROMPT env) parts))
    | None =>
        (finallyBlock (catchBlock (ErrorObject (nullSplitMessage env)) st'),
         Returned)
    end.

(** [getEstimate] from the settlement of the awaited promise to its end. *)
Definition getEstimate_resume (o : Outcome) (st : AppState) : AppState :=
  match o with
  | Resolved resultText =>
      finallyBlock (setEstimationResult (Some (mkEstimationResult resultText)) st)
  | Rejected err => finallyBlock (catchBlock err st)
  end.

(** A whole run of [getEstimate] with nothing else happening in between. *)
Definition getEstimate (env : Env) (o : Outcome) (st : AppState) : AppState :=
  match getEstimate_begin env st with
  | (st', Returned) => st'
  | (st', Awaiting _) => getEstimate_resume o st'
  end.

(** ** What the component renders (lines 105-129) *)

Definition showsSpinner (st : AppState) : bool := isLoading st.

Definition showsError (st : AppState) : bool :=
  match error st with Some _ => true | None => false end.

Definition showsResult (st : AppState) : bool :=
  match estimationResult st with
  | Some _ => negb (isLoading st)
  | None => false
  end.

(** [disabled] of the estimate button (line 120). *)
Definition estimateDisabled (st : AppState) : bool :=
  isLoading st || Nat.eqb (List.length (uploadedImages st)) 0.

(** ** The component as a transition system *)

(** The state cells together with the number of
    [generateDemolitionEstimate] promises not yet settled. *)
Record Sys := mkSys {
  app : AppState;
  inflight : nat
}.

Definition initialSys : Sys := mkSys initialState 0.

Inductive Event :=
| FilesSelected (files : option (list File)) (completions : list Completion)
| RemoveClicked (imageId : string)
| EstimateClicked
| PromiseSettled (o : Outcome).

(** One event, with the handlers called as the source binds them.  A promise
    can settle only if one is outstanding. *)
Definition step (env : Env) (s : Sys) (e : Event) : option Sys :=
  match e with
  | FilesSelected files completions =>
      Some (mkSys (handleImageUpload files completions (app s)) (inflight s))
  | RemoveClicked imageId =>
      Some (mkSys (handleRemoveImage imageId (app s)) (inflight s))
  | EstimateClicked =>
      match getEstimate_begin env (app s) with
      | (st', Returned) => Some (mkSys st' (inflight s))
      | (st', Awaiting _) => Some (mkSys st' (S (inflight s)))
      end
  | PromiseSettled o =>
      match inflight s with
      | 0 => None
      | S n => Some (mkSys (getEstimate_resume o (app s)) n)
      end
  end.

(** As [step], but the estimate button only fires while it is enabled. *)
Definition stepUI (env : Env) (s : Sys) (e : Event) : option Sys :=
  match e with
  | EstimateClicked =>
      if estimateDisabled (app s) then None else step env s e
  | _ => step env s e
  end.

Fixpoint run (stp : Sys -> Event -> option Sys) (evs : list Event) (s : Sys)
    : option Sys :=
  match evs with
  | [] => Some s
  | e :: evs' =>
      match stp s e with
      | None => None
      | Some s' => run stp evs' s'
      end
  end.

(** States the handlers can produce from the initial render. *)
Definition reachable (env : Env) (s : Sys) : Prop :=
  exists evs, run (step env) evs initialSys = Some s.

(** States reachable when estimates are only requested through the enabled
    button. *)
Definition reachableUI (env : Env) (s : Sys) : Prop :=
  exists evs, run (stepUI env) evs initialSys = Some s.

(** ** Shapes of data URLs, used to state what the assembly selects *)

Fixpoint has_comma (s : string) : bool :=
  match s with
  | EmptyString => false
  | String c rest => Ascii.eqb c ","%char || has_comma rest
  end.

(** The characters of the base64 alphabet, padding included. *)
Definition is_base64_char (c : ascii) : bool :=
  let n := nat_of_ascii c in
  (((65 <=? n) && (n <=? 90)) || ((97 <=? n) && (n <=? 122))
   || ((48 <=? n) && (n <=? 57)) || (n =? 43) || (n =? 47) || (n =? 61))%nat.

Fixpoint is_base64 (s : string) : bool :=
  match s with
  | EmptyString => true
  | String c rest => is_base64_char c && is_base64 rest
  end.

(** With the credential set and the button gating the requests, at most one
    call is outstanding; while it is, the spinner shows and both outcome
    cells are empty; otherwise at most one of them is filled. *)
Definition outcome_exclusive (s : Sys) : Prop :=
  match inflight s with
  | 0 => estimationResult (app s) = None \/ error (app s) = None
  | 1 => isLoading (app s) = true
         /\ estimationResult (app s) = None
         /\ error (app s) = None
  | _ => False
  end.

(** ** The other render-time flags and overlapping batches *)

(** [disabled] of the upload area (line 105). *)
Definition uploadDisabled (st : AppState) : bool :=
  isLoading st || Nat.leb 10 (List.length (uploadedImages st)).

(** Two calls of [handleImageUpload] whose readers run at the same time.
    Each call has its own [newImages] array and its own [files.length]
    (lines 19-21); the callbacks share nothing but the state cell, which
    they write through the updater of line 32. *)
Inductive BatchEvent :=
| OfFirst (c : Completion)
| OfSecond (c : Completion).

Definition onloadend2 (filesLength1 filesLength2 : nat)
    (s : (list FileWithPreview * list FileWithPreview) * AppState)
    (e : BatchEvent)
    : (list FileWithPreview * list FileWithPreview) * AppState :=
  match e with
  | OfFirst c =>
      let r := onloadend filesLength1 (fst (fst s), snd s) c in
      ((fst r, snd (fst s)), snd r)
  | OfSecond c =>
      let r := onloadend filesLength2 (snd (fst s), snd s) c in
      ((fst (fst s), fst r), snd r)
  end.

(** Both batches, driven by their [onloadend] events in the order they
    fire. *)
Definition handleImageUpload2 (files1 files2 : list File)
    (events : list BatchEvent) (st : AppState) : AppState :=
  snd (fold_left (onloadend2 (List.length files1) (List.length files2))
         events (([], []), st)).

Fixpoint ofFirst (events : list BatchEvent) : list Completion :=
  match events with
  | [] => []
  | OfFirst c :: rest => c :: ofFirst rest
  | OfSecond _ :: rest => ofFirst rest
  end.

Fixpoint ofSecond (events : list BatchEvent) : list Completion :=
  match events with
  | [] => []
  | OfFirst _ :: rest => ofSecond rest
  | OfSecond c :: rest => c :: ofSecond rest
  end.

(** With the credential set and the button gating the requests: the spinner
    shows exactly while a call is outstanding, there is never more than one,
    and while it is outstanding both outcome cells are empty. *)
Definition ui_invariant (s : Sys) : Prop :=
  match inflight s with
  | 0 => isLoading (app s) = false
  | 1 => isLoading (app s) = true
         /\ estimationResult (app s) = None
         /\ error (app s) = None
  | _ => False
  end.

(** ** Sample data for the concrete runs below *)

Definition photoA : File := mkFile "a.png" "image/png".
Definition photoB : File := mkFile "b.jpg" "image/jpeg".

Definition urlA : string := "data:image/png;base64,iVBORw0KGgo=".
Definition urlB : string := "data:image/jpeg;base64,/9j/4AAQ".

Definition doneA : Completion := mkCompletion photoA (Some urlA) "id-a".
Definition doneB : Completion := mkCompletion photoB (Some urlB) "id-b".

(** A read that ended in an error: [onloadend] fires with a [null] result. *)
Definition failedA : Completion := mkCompletion photoA None "id-a".

Definition envWithKey : Env :=
  mkEnv (Some "key") "prompt" "Cannot read properties of null (reading 'split')".

Definition envNoKey : Env :=
  mkEnv None "prompt" "Cannot read properties of null (reading 'split')".

Definition oneImage : AppState :=
  mkAppState [image_of doneA] None false None.

Definition twoImages : AppState :=
  mkAppState [image_of doneA; image_of doneB] None false None.

(** The same two pictures under other ids and file names, in a state that
    already shows an error. *)
Definition twoImagesAgain : AppState :=
  mkAppState
    [mkFileWithPreview "id-x" (mkFile "x.png" "image/png") (Some urlA);
     mkFileWithPreview "id-y" (mkFile "y.jpg" "image/jpeg") (Some urlB)]
    None false (Some msgNoImages).

(** A collection at the cap. *)
Definition tenImages : AppState :=
  mkAppState (repeat (image_of doneA) 10) None false None.

(** Three events through the enabled controls: one file selected and read,
    the estimate requested, the call resolved. *)
Definition successfulSession : list Event :=
  [FilesSelected (Some [photoA]) [doneA];
   EstimateClicked;
   PromiseSettled (Resolved "ok")].

(** * Properties *)

#[local] Arguments firstn : simpl never.

(** ** State cells: each setter touches one cell *)

Lemma app_state_eta (st : AppState) :
  mkAppState (uploadedImages st) (estimationResult st) (isLoading st) (error st) = st.
Proof. destruct st; reflexivity. Qed.

(** ** Intake: the [onloadend] callbacks of one batch *)

Section Batch.

Variable filesLength : nat.

Lemma onloadend_collects (s : list FileWithPreview * AppState) (c : Completion) :
  fst (onloadend filesLength s c) = fst s ++ [image_of c].
Proof.
  unfold onloadend.
  destruct (Nat.eqb _ filesLength); reflexivity.
Qed.

(** The shared array grows by one image per callback, in callback order. *)
Lemma fold_onloadend_collects (cs : list Completion) :
  forall s,
    fst (fold_left (onloadend filesLength) cs s) = fst s ++ map image_of cs.
Proof.
  induction cs as [|c cs IH]; intros s; simpl.
  - now rewrite app_nil_r.
  - rewrite IH, onloadend_collects, <- app_assoc. reflexivity.
Qed.

(** While fewer callbacks have run than there are files, the state cells
    are not written. *)
Lemma fold_onloadend_waits (cs : list Completion) :
  forall acc st,
    List.length acc + List.length cs < filesLength ->
    fold_left (onloadend filesLength) cs (acc, st) = (acc ++ map image_of cs, st).
Proof.
  induction cs as [|c cs IH]; intros acc st Hlt; simpl in *.
  - now rewrite app_nil_r.
  - unfold onloadend at 2; simpl.
    assert (Hne : Nat.eqb (List.length (acc ++ [image_of c])) filesLength = false).
    { apply Nat.eqb_neq. rewrite length_app; simpl. lia. }
    rewrite Hne, IH.
    + now rewrite <- app_assoc.
    + rewrite length_app; simpl. lia.
Qed.

(** The callback that brings the count to [files.length] writes the
    collection, from the value it has at that moment. *)
Lemma fold_onloadend_fires (cs : list Completion) (c : Completion) :
  forall st,
    S (List.length cs) = filesLength ->
    fold_left (onloadend filesLength) (cs ++ [c]) ([], st) =
      (map image_of (cs ++ [c]),
       setUploadedImages
         (firstn 10 (uploadedImages st ++ map image_of (cs ++ [c]))) st).
Proof.
  intros st Hlen.
  rewrite fold_left_app; simpl.
  rewrite fold_onloadend_waits by (simpl; lia).
  unfold onloadend; simpl.
  rewrite map_app; simpl.
  assert (Heq : Nat.eqb (List.length (map image_of cs ++ [image_of c])) filesLength = true).
  { apply Nat.eqb_eq. rewrite length_app, length_map; simpl. lia. }
  now rewrite Heq.
Qed.

(** Whatever the callbacks, no write makes the collection longer than 10. *)
Lemma fold_onloadend_size (cs : list Completion) :
  forall s,
    List.length (uploadedImages (snd s)) <= 10 ->
    List.length (uploadedImages (snd (fold_left (onloadend filesLength) cs s))) <= 10.
Proof.
  induction cs as [|c cs IH]; intros s Hs; simpl; [assumption|].
  apply IH. unfold onloadend.
  destruct (Nat.eqb _ filesLength); simpl; [|assumption].
  apply firstn_le_length.
Qed.

(** The callbacks write no cell but the collection. *)
Lemma fold_onloadend_frame (cs : list Completion) :
  forall s,
    let st' := snd (fold_left (onloadend filesLength) cs s) in
    estimationResult st' = estimationResult (snd s)
    /\ isLoading st' = isLoading (snd s)
    /\ error st' = error (snd s).
Proof.
  induction cs as [|c cs IH]; intros s; simpl; [auto|].
  destruct (IH (onloadend filesLength s c)) as (H1 & H2 & H3).
  rewrite H1, H2, H3. unfold onloadend.
  destruct (Nat.eqb _ filesLength); simpl; auto.
Qed.

End Batch.

Lemma completions_count (files : list File) (completions : list Completion) :
  Permutation (map done_file completions) files ->
  List.length completions = List.length files.
Proof.
  intros HP. apply Permutation_length in HP. now rewrite length_map in HP.
Qed.

(** A non-empty batch whose readers have all finished: one write, of the
    old collection followed by the new images, cut to 10. *)
Lemma handleImageUpload_nonempty (files : list File)
    (completions : list Completion) (st : AppState) :
  Permutation (map done_file completions) files ->
  files <> [] ->
  handleImageUpload (Some files) completions st =
    setUploadedImages
      (firstn 10 (uploadedImages st ++ map image_of completions)) st.
Proof.
  intros HP Hne. apply completions_count in HP.
  unfold handleImageUpload.
  destruct (exists_last (l := completions)) as (cs & c & ->).
  { intros ->. destruct files; [congruence | discriminate]. }
  rewrite fold_onloadend_fires; [reflexivity|].
  rewrite length_app in HP; simpl in HP. lia.
Qed.

(** An empty selection starts no reader and writes nothing. *)
Lemma handleImageUpload_empty (completions : list Completion) (st : AppState) :
  Permutation (map done_file completions) [] ->
  handleImageUpload (Some []) completions st = st.
Proof.
  intros HP. apply Permutation_sym, Permutation_nil in HP.
  destruct completions; [reflexivity | discriminate].
Qed.

Lemma handleImageUpload_size (files : option (list File))
    (completions : list Completion) (st : AppState) :
  List.length (uploadedImages st) <= 10 ->
  List.length (uploadedImages (handleImageUpload files completions st)) <= 10.
Proof.
  intros H. destruct files as [fs|]; simpl; [|assumption].
  now apply fold_onloadend_size.
Qed.

Lemma handleImageUpload_frame (files : option (list File))
    (completions : list Completion) (st : AppState) :
  let st' := handleImageUpload files completions st in
  estimationResult st' = estimationResult st
  /\ isLoading st' = isLoading st
  /\ error st' = error st.
Proof.
  destruct files as [fs|]; simpl; [|auto].
  apply (fold_onloadend_frame (List.length fs) completions ([], st)).
Qed.

Lemma handleImageUpload_complete (files : list File)
    (completions : list Completion) (st : AppState) :
  Permutation (map done_file completions) files ->
  List.length (uploadedImages st) <= 10 ->
  uploadedImages (handleImageUpload (Some files) completions st) =
    firstn 10 (uploadedImages st ++ map image_of completions).
Proof.
  intros HP Hsz. destruct files as [|f fs].
  - rewrite handleImageUpload_empty by assumption.
    apply Permutation_sym, Permutation_nil in HP.
    destruct completions; [|discriminate]. simpl.
    rewrite app_nil_r. symmetry. now apply firstn_all2.
  - rewrite handleImageUpload_nonempty by (assumption || discriminate).
    reflexivity.
Qed.

(** ** Preview store: removal by id *)

Lemma filter_absent (imageId : string) (imgs : list FileWithPreview) :
  ~ In imageId (map id imgs) ->
  filter (keeps imageId) imgs = imgs.
Proof.
  induction imgs as [|img imgs IH]; simpl; intros Hnin; [reflexivity|].
  unfold keeps at 1.
  destruct (String.eqb_spec (id img) imageId) as [Heq|Hne]; simpl.
  - exfalso. apply Hnin. now left.
  - f_equal. apply IH. intros Hin. apply Hnin. now right.
Qed.

Lemma filter_present_once (imageId : string)
    (before after : list FileWithPreview) (img : FileWithPreview) :
  id img = imageId ->
  ~ In imageId (map id before) ->
  ~ In imageId (map id after) ->
  filter (keeps imageId) (before ++ img :: after) = before ++ after.
Proof.
  intros Hid Hb Ha.
  rewrite filter_app; simpl.
  rewrite (filter_absent imageId before Hb), (filter_absent imageId after Ha).
  unfold keeps. rewrite Hid, String.eqb_refl. reflexivity.
Qed.

Lemma filter_removes (imageId : string) (imgs : list FileWithPreview) :
  ~ In imageId (map id (filter (keeps imageId) imgs)).
Proof.
  intros Hin. apply in_map_iff in Hin as (img & Hid & Hf).
  apply filter_In in Hf as (_ & Hk). unfold keeps in Hk.
  rewrite Hid, String.eqb_refl in Hk. discriminate.
Qed.

(** ** Request assembly: what [split(',')[1]] selects *)

Lemma base64_char_not_comma (c : ascii) :
  is_base64_char c = true -> Ascii.eqb c ","%char = false.
Proof.
  destruct (Ascii.eqb_spec c ","%char) as [->|]; [|reflexivity].
  vm_compute. discriminate.
Qed.

Lemma base64_has_no_comma (s : string) :
  is_base64 s = true -> has_comma s = false.
Proof.
  induction s as [|c s IH]; simpl; [reflexivity|].
  intros H. apply andb_true_iff in H as [Hc Hs].
  now rewrite (base64_char_not_comma c Hc), (IH Hs).
Qed.

Lemma split_comma_nonempty (s : string) : split_comma s <> [].
Proof.
  destruct s as [|c s]; simpl; [discriminate|].
  destruct (Ascii.eqb c ","%char); [discriminate|].
  destruct (split_comma s); discriminate.
Qed.

Lemma split_comma_plain (s : string) :
  has_comma s = false -> split_comma s = [s].
Proof.
  induction s as [|c s IH]; simpl; [reflexivity|].
  intros H. apply orb_false_iff in H as [Hc Hs].
  now rewrite Hc, (IH Hs).
Qed.

Lemma split_comma_at_first (header rest : string) :
  has_comma header = false ->
  split_comma (header ++ String ","%char rest)%string = header :: split_comma rest.
Proof.
  induction header as [|c h IH]; simpl; intros H; [reflexivity|].
  apply orb_false_iff in H as [Hc Hh].
  now rewrite Hc, (IH Hh).
Qed.

(** With a single comma, index 1 of the split is all that follows it. *)
Lemma split_comma_payload (header payload : string) :
  has_comma header = false ->
  has_comma payload = false ->
  nth_error (split_comma (header ++ String ","%char payload)%string) 1 = Some payload.
Proof.
  intros Hh Hp.
  now rewrite (split_comma_at_first header payload Hh), (split_comma_plain payload Hp).
Qed.

(** [split(',')[1]] stops at the next comma: the selected segment is the
    text between the first and the second one. *)
Example split_comma_two_commas :
  nth_error (split_comma "a,b,c") 1 = Some "b".
Proof. reflexivity. Qed.

Example split_comma_no_comma :
  nth_error (split_comma "abc") 1 = None.
Proof. reflexivity. Qed.

Lemma imageParts_nth (imgs : list FileWithPreview) :
  forall parts i img,
    imageParts imgs = Some parts ->
    nth_error imgs i = Some img ->
    exists part, imagePart img = Some part /\ nth_error parts i = Some part.
Proof.
  induction imgs as [|x imgs IH]; intros parts i img Hp Hn.
  - destruct i; discriminate.
  - simpl in Hp.
    destruct (imagePart x) as [px|] eqn:Hx; [|discriminate].
    destruct (imageParts imgs) as [ps|] eqn:Hps; [|discriminate].
    injection Hp as <-.
    destruct i as [|i]; simpl in *.
    + injection Hn as <-. now exists px.
    + now apply (IH ps i img).
Qed.

Lemma imageParts_length (imgs : list FileWithPreview) :
  forall parts, imageParts imgs = Some parts -> List.length parts = List.length imgs.
Proof.
  induction imgs as [|x imgs IH]; simpl; intros parts Hp.
  - now injection Hp as <-.
  - destruct (imagePart x); [|discriminate].
    destruct (imageParts imgs) as [ps|]; [|discriminate].
    injection Hp as <-. simpl. now rewrite (IH ps).
Qed.

(** The parts depend on media type and preview only, image by image. *)
Lemma imageParts_content (imgs1 : list FileWithPreview) :
  forall imgs2,
    map (fun img => (type (file img), preview img)) imgs1 =
    map (fun img => (type (file img), preview img)) imgs2 ->
    imageParts imgs1 = imageParts imgs2.
Proof.
  induction imgs1 as [|x xs IH]; intros [|y ys] H; simpl in *;
    try discriminate; [reflexivity|].
  injection H as Ht Hp Hrest.
  unfold imagePart. rewrite Ht, Hp, (IH ys Hrest). reflexivity.
Qed.

(** ** The estimate flow *)

Lemma length_zero_iff (imgs : list FileWithPreview) :
  Nat.eqb (List.length imgs) 0 = true <-> imgs = [].
Proof.
  destruct imgs; simpl; split; intros H; try reflexivity; discriminate.
Qed.

Lemma getEstimate_begin_empty (env : Env) (st : AppState) :
  uploadedImages st = [] ->
  getEstimate_begin env st = (setError (Some msgNoImages) st, Returned).
Proof.
  intros H. unfold getEstimate_begin. now rewrite H.
Qed.

Lemma getEstimate_begin_nonempty (env : Env) (st : AppState) :
  uploadedImages st <> [] ->
  getEstimate_begin env st =
    match imageParts (uploadedImages st) with
    | Some parts =>
        (checkApiKey env (enterLoading st),
         Awaiting (mkNetCall (DEMOLITION_ESTIMATE_PROMPT env) parts))
    | None =>
        (finallyBlock
           (catchBlock (ErrorObject (nullSplitMessage env))
              (checkApiKey env (enterLoading st))),
         Returned)
    end.
Proof.
  intros H. unfold getEstimate_begin.
  destruct (Nat.eqb (List.length (uploadedImages st)) 0) eqn:E; [|reflexivity].
  apply length_zero_iff in E. contradiction.
Qed.

Lemma checkApiKey_with_key (env : Env) (st : AppState) :
  truthy (VITE_GEMINI_API_KEY env) = true -> checkApiKey env st = st.
Proof. intros H. unfold checkApiKey. now rewrite H. Qed.

Lemma checkApiKey_images (env : Env) (st : AppState) :
  uploadedImages (checkApiKey env st) = uploadedImages st.
Proof. unfold checkApiKey. destruct (negb _); reflexivity. Qed.

Lemma catchBlock_images (err : Thrown) (st : AppState) :
  uploadedImages (catchBlock err st) = uploadedImages st.
Proof. destruct err; reflexivity. Qed.

(** A suspended [getEstimate] has passed the emptiness guard and has built
    its call from the collection it saw. *)
Lemma getEstimate_begin_awaiting (env : Env) (st st' : AppState) (call : NetCall) :
  getEstimate_begin env st = (st', Awaiting call) ->
  uploadedImages st <> []
  /\ imageParts (uploadedImages st) = Some (call_parts call)
  /\ call_prompt call = DEMOLITION_ESTIMATE_PROMPT env
  /\ st' = checkApiKey env (enterLoading st).
Proof.
  unfold getEstimate_begin.
  destruct (Nat.eqb (List.length (uploadedImages st)) 0) eqn:E; [discriminate|].
  destruct (imageParts (uploadedImages st)) as [parts|]; [|discriminate].
  intros H. injection H as <- <-. simpl.
  repeat split; try reflexivity.
  intros Hnil. rewrite Hnil in E. discriminate.
Qed.

Lemma getEstimate_begin_images (env : Env) (st : AppState) :
  uploadedImages (fst (getEstimate_begin env st)) = uploadedImages st.
Proof.
  unfold getEstimate_begin.
  destruct (Nat.eqb (List.length (uploadedImages st)) 0); [reflexivity|].
  destruct (imageParts (uploadedImages st)); simpl;
    now rewrite checkApiKey_images.
Qed.

Lemma getEstimate_resume_images (o : Outcome) (st : AppState) :
  uploadedImages (getEstimate_resume o st) = uploadedImages st.
Proof.
  destruct o as [t|err]; simpl; [reflexivity|].
  apply catchBlock_images.
Qed.

(** ** Invariants of the transition system *)

Lemma run_invariant (stp : Sys -> Event -> option Sys) (P : Sys -> Prop) :
  (forall s e s', P s -> stp s e = Some s' -> P s') ->
  forall evs s s', P s -> run stp evs s = Some s' -> P s'.
Proof.
  intros Hstep evs.
  induction evs as [|e evs IH]; intros s s' HP Hrun; simpl in Hrun.
  - now injection Hrun as <-.
  - destruct (stp s e) as [s1|] eqn:E; [|discriminate].
    apply (IH s1 s'); [|assumption].
    now apply (Hstep s e).
Qed.

(** What the button lets through, the handlers accept. *)
Lemma stepUI_step (env : Env) (s s' : Sys) (e : Event) :
  stepUI env s e = Some s' -> step env s e = Some s'.
Proof.
  destruct e; simpl; try (intros H; exact H).
  destruct (estimateDisabled (app s)); [discriminate | intros H; exact H].
Qed.

Lemma reachableUI_reachable (env : Env) (s : Sys) :
  reachableUI env s -> reachable env s.
Proof.
  intros [evs Hrun]. exists evs.
  revert Hrun. generalize initialSys.
  induction evs as [|e evs IH]; intros s0 Hrun; simpl in *; [assumption|].
  destruct (stepUI env s0 e) as [s1|] eqn:E; [|discriminate].
  rewrite (stepUI_step env s0 s1 e E). now apply IH.
Qed.

Lemma step_size (env : Env) (s s' : Sys) (e : Event) :
  List.length (uploadedImages (app s)) <= 10 ->
  step env s e = Some s' ->
  List.length (uploadedImages (app s')) <= 10.
Proof.
  intros Hs Hstep. destruct e as [files cs|imageId| |o]; simpl in Hstep.
  - injection Hstep as <-. simpl. now apply handleImageUpload_size.
  - injection Hstep as <-. simpl.
    etransitivity; [apply filter_length_le | exact Hs].
  - pose proof (getEstimate_begin_images env (app s)) as Himg.
    destruct (getEstimate_begin env (app s)) as [st' [|call]];
      injection Hstep as <-; simpl in *; now rewrite Himg.
  - destruct (inflight s); [discriminate|].
    injection Hstep as <-. simpl. now rewrite getEstimate_resume_images.
Qed.

Lemma reachable_size (env : Env) (s : Sys) :
  reachable env s -> List.length (uploadedImages (app s)) <= 10.
Proof.
  intros [evs Hrun].
  apply (run_invariant (step env)
           (fun s => List.length (uploadedImages (app s)) <= 10)
           (fun s0 e s1 => step_size env s0 s1 e) evs initialSys s);
    [simpl; lia | assumption].
Qed.

Lemma stepUI_outcome_exclusive (env : Env) (s s' : Sys) (e : Event) :
  truthy (VITE_GEMINI_API_KEY env) = true ->
  outcome_exclusive s ->
  stepUI env s e = Some s' ->
  outcome_exclusive s'.
Proof.
  intros Hkey Hinv Hstep. unfold outcome_exclusive in *.
  destruct e as [files cs|imageId| |o]; simpl in Hstep.
  - injection Hstep as <-. simpl.
    destruct (handleImageUpload_frame files cs (app s)) as (-> & -> & ->).
    exact Hinv.
  - injection Hstep as <-. simpl. exact Hinv.
  - destruct (estimateDisabled (app s)) eqn:Hdis; [discriminate|].
    unfold estimateDisabled in Hdis.
    apply orb_false_iff in Hdis as [Hload Hlen].
    assert (Hne : uploadedImages (app s) <> []).
    { intros Hnil. rewrite Hnil in Hlen. discriminate. }
    assert (Hidle : inflight s = 0).
    { destruct (inflight s) as [|[|n]]; [reflexivity | | contradiction].
      destruct Hinv as (Hl & _). congruence. }
    rewrite (getEstimate_begin_nonempty env (app s) Hne) in Hstep.
    rewrite (checkApiKey_with_key env _ Hkey) in Hstep.
    destruct (imageParts (uploadedImages (app s)));
      injection Hstep as <-; simpl; rewrite ?Hidle; simpl; auto.
  - destruct (inflight s) as [|[|n]]; [discriminate | | contradiction].
    destruct Hinv as (_ & Hres & Herr).
    injection Hstep as <-. simpl.
    destruct o as [t|[m|]]; simpl; auto.
Qed.

Lemma reachableUI_outcome_exclusive (env : Env) (s : Sys) :
  truthy (VITE_GEMINI_API_KEY env) = true ->
  reachableUI env s ->
  outcome_exclusive s.
Proof.
  intros Hkey [evs Hrun].
  apply (run_invariant (stepUI env) outcome_exclusive
           (fun s0 e s1 => stepUI_outcome_exclusive env s0 s1 e Hkey)
           evs initialSys s); [simpl; now left | assumption].
Qed.

(** * The claims *)

(** C1 (as amended).  When an estimate is requested with a non-empty
    collection whose images all carry a preview, and the credential is set,
    [getEstimate] reaches its [await] with the spinner on and both the
    result and the error cleared; if the call resolves, the result text is
    stored, the spinner is off and the error is still cleared; if it rejects
    with an [Error], the error is the fixed prefix followed by the error's
    message, the spinner is off and the result is still unset. *)
Theorem getEstimate_loading_then_outcome :
  forall (env : Env) (st : AppState) (parts : list GeminiImagePart),
    truthy (VITE_GEMINI_API_KEY env) = true ->
    uploadedImages st <> [] ->
    imageParts (uploadedImages st) = Some parts ->
    exists st1,
      getEstimate_begin env st =
        (st1, Awaiting (mkNetCall (DEMOLITION_ESTIMATE_PROMPT env) parts))
      /\ isLoading st1 = true
      /\ estimationResult st1 = None
      /\ error st1 = None
      /\ (forall resultText,
            let st2 := getEstimate_resume (Resolved resultText) st1 in
            isLoading st2 = false
            /\ estimationResult st2 = Some (mkEstimationResult resultText)
            /\ error st2 = None)
      /\ (forall message,
            let st2 := getEstimate_resume (Rejected (ErrorObject message)) st1 in
            isLoading st2 = false
            /\ error st2 = Some (msgErrorPrefix ++ message)%string
            /\ estimationResult st2 = None).
Proof.
  intros env st parts Hkey Hne Hparts.
  exists (enterLoading st).
  rewrite (getEstimate_begin_nonempty env st Hne), Hparts.
  rewrite (checkApiKey_with_key env _ Hkey).
  repeat split.
Qed.

Lemma getEstimate_loading_then_outcome_witness :
  exists st1,
    getEstimate_begin envWithKey oneImage =
      (st1, Awaiting (mkNetCall "prompt"
              [mkGeminiImagePart (mkInlineData "image/png" (Some "iVBORw0KGgo="))]))
    /\ isLoading st1 = true.
Proof.
  destruct (getEstimate_loading_then_outcome envWithKey oneImage
              [mkGeminiImagePart (mkInlineData "image/png" (Some "iVBORw0KGgo="))])
    as (st1 & Hbegin & Hload & _).
  - reflexivity.
  - discriminate.
  - reflexivity.
  - exists st1. split; assumption.
Defined.

(** C1 as stated fails when the credential is not set: the request still
    goes out, but the spinner is already off and the configuration message
    set while the call is outstanding, and a successful call leaves that
    message in place next to the result. *)
Lemma getEstimate_without_key_keeps_error :
  uploadedImages oneImage <> []
  /\ exists st1 call,
       getEstimate_begin envNoKey oneImage = (st1, Awaiting call)
       /\ isLoading st1 = false
       /\ error st1 = Some msgNoApiKey
       /\ estimationResult (getEstimate_resume (Resolved "ok") st1)
          = Some (mkEstimationResult "ok")
       /\ error (getEstimate_resume (Resolved "ok") st1) = Some msgNoApiKey.
Proof.
  split; [discriminate|].
  eexists; eexists. split; [reflexivity|].
  repeat split.
Qed.

(** C2.  With an empty collection, [getEstimate] returns without reaching
    the call (for the component: no promise becomes outstanding), the error
    is the validation message, and the loading flag, the result and the
    collection are as they were. *)
Theorem getEstimate_empty_collection :
  forall (env : Env) (st : AppState) (o : Outcome) (n : nat),
    uploadedImages st = [] ->
    let st' := fst (getEstimate_begin env st) in
    snd (getEstimate_begin env st) = Returned
    /\ getEstimate env o st = st'
    /\ step env (mkSys st n) EstimateClicked = Some (mkSys st' n)
    /\ error st' = Some msgNoImages
    /\ isLoading st' = isLoading st
    /\ estimationResult st' = estimationResult st
    /\ uploadedImages st' = uploadedImages st.
Proof.
  intros env st o n Hnil. unfold getEstimate; simpl.
  rewrite (getEstimate_begin_empty env st Hnil). simpl.
  repeat split.
Qed.

Lemma getEstimate_empty_collection_witness :
  snd (getEstimate_begin envWithKey initialState) = Returned
  /\ error (fst (getEstimate_begin envWithKey initialState)) = Some msgNoImages
  /\ isLoading (fst (getEstimate_begin envWithKey initialState)) = false.
Proof.
  destruct (getEstimate_empty_collection envWithKey initialState (Resolved "ok") 0)
    as (Hret & _ & _ & Herr & Hload & _).
  - reflexivity.
  - repeat split; assumption.
Defined.

(** C3.  A batch whose readers have all finished replaces the collection by
    the old collection followed by the images the batch produced, cut to its
    first 10 entries; the error, the result and the loading flag are not
    touched.  This holds for any old collection when the batch has a file,
    and for the empty batch when the old collection has at most 10 entries.
    No operation takes a collection of at most 10 entries to a longer one,
    so the collection has at most 10 entries in every state the component
    can reach. *)
Theorem handleImageUpload_appends_and_caps :
  forall (env : Env) (st : AppState) (files : list File)
         (completions : list Completion),
    List.length (uploadedImages st) <= 10 \/ files <> [] ->
    Permutation (map done_file completions) files ->
    let st' := handleImageUpload (Some files) completions st in
    uploadedImages st' =
      firstn 10 (uploadedImages st ++ map image_of completions)
    /\ List.length (uploadedImages st') <= 10
    /\ error st' = error st
    /\ estimationResult st' = estimationResult st
    /\ isLoading st' = isLoading st
    /\ (forall s e s',
          List.length (uploadedImages (app s)) <= 10 ->
          step env s e = Some s' ->
          List.length (uploadedImages (app s')) <= 10)
    /\ (forall s, reachable env s -> List.length (uploadedImages (app s)) <= 10).
Proof.
  intros env st files completions Hpre HP st'.
  destruct (handleImageUpload_frame (Some files) completions st) as (Hr & Hl & He).
  assert (Heq : uploadedImages st' =
                firstn 10 (uploadedImages st ++ map image_of completions)).
  { destruct Hpre as [Hsz|Hne].
    - now apply handleImageUpload_complete.
    - unfold st'. now rewrite handleImageUpload_nonempty. }
  repeat split.
  - exact Heq.
  - rewrite Heq. apply firstn_le_length.
  - exact He.
  - exact Hr.
  - exact Hl.
  - intros s e s'. apply step_size.
  - apply reachable_size.
Qed.

Lemma handleImageUpload_appends_and_caps_witness :
  uploadedImages
    (handleImageUpload (Some [photoA; photoB]) [doneB; doneA] initialState)
  = [image_of doneB; image_of doneA].
Proof.
  destruct (handleImageUpload_appends_and_caps envWithKey initialState
              [photoA; photoB] [doneB; doneA]) as (Heq & _).
  - left. simpl. lia.
  - simpl. apply perm_swap.
  - exact Heq.
Defined.

(** C4 (as amended).  The images a batch appends are in the order in which
    the [onloadend] callbacks of its readers ran: the files of the appended
    images are the files of the completions, in completion order.  They are
    in submission order when the reads finish in submission order. *)
Theorem handleImageUpload_completion_order :
  forall (st : AppState) (files : list File) (completions : list Completion),
    List.length (uploadedImages st) <= 10 ->
    Permutation (map done_file completions) files ->
    exists appended,
      uploadedImages (handleImageUpload (Some files) completions st) =
        firstn 10 (uploadedImages st ++ appended)
      /\ map file appended = map done_file completions
      /\ (map done_file completions = files -> map file appended = files).
Proof.
  intros st files completions Hsz HP.
  exists (map image_of completions).
  assert (Hfiles : map file (map image_of completions) = map done_file completions).
  { rewrite map_map. reflexivity. }
  repeat split.
  - now apply handleImageUpload_complete.
  - exact Hfiles.
  - intros Hsame. now rewrite Hfiles.
Qed.

Lemma handleImageUpload_completion_order_witness :
  exists appended,
    uploadedImages
      (handleImageUpload (Some [photoA; photoB]) [doneA; doneB] initialState) =
      firstn 10 ([] ++ appended)
    /\ map file appended = [photoA; photoB].
Proof.
  destruct (handleImageUpload_completion_order initialState
              [photoA; photoB] [doneA; doneB]) as (appended & Heq & _ & Hsub).
  - simpl. lia.
  - apply Permutation_refl.
  - exists appended. split; [exact Heq | apply Hsub; reflexivity].
Defined.

(** C4 as stated fails: two files selected as [a.png], [b.jpg] whose reads
    finish in the opposite order are appended as [b.jpg], [a.png]. *)
Lemma handleImageUpload_not_submission_order :
  Permutation (map done_file [doneB; doneA]) [photoA; photoB]
  /\ map file
       (uploadedImages
          (handleImageUpload (Some [photoA; photoB]) [doneB; doneA] initialState))
     = [photoB; photoA]
  /\ [photoB; photoA] <> [photoA; photoB].
Proof.
  split; [apply perm_swap|].
  split; [reflexivity | discriminate].
Qed.

(** C5 (a defect of the code).  The claim asks that a file whose read fails
    be skipped.  In a batch of [a.png], [b.jpg] where the read of [a.png]
    fails, the code does not skip it: the callback of line 24 runs for the
    failed reader too and pushes an image whose preview is [null], against
    the declared [preview: string]; the collection is written once two
    readers have finished, the number of files selected, though only one
    read succeeded.  The stored [null] then makes [img.preview.split] at
    line 77 throw, so the next request for an estimate ends in the error
    message without reaching the call. *)
Theorem handleImageUpload_keeps_failed_file :
  uploadedImages
    (handleImageUpload (Some [photoA; photoB]) [failedA; doneB] initialState)
  = [mkFileWithPreview "id-a" photoA None;
     mkFileWithPreview "id-b" photoB (Some urlB)]
  /\ getEstimate_begin envWithKey
       (handleImageUpload (Some [photoA; photoB]) [failedA; doneB] initialState)
     = (mkAppState
          [mkFileWithPreview "id-a" photoA None;
           mkFileWithPreview "id-b" photoB (Some urlB)]
          None false
          (Some (msgErrorPrefix ++ nullSplitMessage envWithKey)%string),
        Returned).
Proof.
  split; reflexivity.
Qed.

(** C6 (as amended).  With the credential set and estimates requested only
    through the enabled button, no reachable state has both a result and an
    error. *)
Theorem result_and_error_exclusive :
  forall (env : Env) (s : Sys),
    truthy (VITE_GEMINI_API_KEY env) = true ->
    reachableUI env s ->
    estimationResult (app s) = None \/ error (app s) = None.
Proof.
  intros env s Hkey Hreach.
  pose proof (reachableUI_outcome_exclusive env s Hkey Hreach) as Hinv.
  unfold outcome_exclusive in Hinv.
  destruct (inflight s) as [|[|n]].
  - exact Hinv.
  - left. apply Hinv.
  - contradiction.
Qed.

Lemma result_and_error_exclusive_witness :
  run (stepUI envWithKey) successfulSession initialSys
    = Some (mkSys (mkAppState [image_of doneA]
                     (Some (mkEstimationResult "ok")) false None) 0)
  /\ error (mkAppState [image_of doneA]
              (Some (mkEstimationResult "ok")) false None) = None.
Proof.
  split; [reflexivity|].
  destruct (result_and_error_exclusive envWithKey
              (mkSys (mkAppState [image_of doneA]
                        (Some (mkEstimationResult "ok")) false None) 0))
    as [Hres|Herr].
  - reflexivity.
  - exists successfulSession. reflexivity.
  - discriminate Hres.
  - exact Herr.
Defined.

(** C6 as stated fails: without the credential the same three events end in
    a state that holds the result of the call and the configuration error
    together. *)
Lemma result_and_error_together_without_key :
  reachableUI envNoKey
    (mkSys (mkAppState [image_of doneA]
              (Some (mkEstimationResult "ok")) false (Some msgNoApiKey)) 0)
  /\ showsResult (mkAppState [image_of doneA]
                    (Some (mkEstimationResult "ok")) false (Some msgNoApiKey)) = true
  /\ showsError (mkAppState [image_of doneA]
                   (Some (mkEstimationResult "ok")) false (Some msgNoApiKey)) = true.
Proof.
  split; [exists successfulSession; reflexivity|].
  split; reflexivity.
Qed.

(** C7.  Removing an id that no image of the collection carries leaves the
    state as it is, and removing twice is removing once.  Removing the id of
    an image of the collection that alone carries it yields the images
    before it followed by the images after it, in their order.  Nothing but
    the collection is written. *)
Theorem handleRemoveImage_removes_that_image :
  forall (imageId : string) (st : AppState),
    (~ In imageId (map id (uploadedImages st)) ->
       handleRemoveImage imageId st = st)
    /\ handleRemoveImage imageId (handleRemoveImage imageId st)
       = handleRemoveImage imageId st
    /\ (forall before img after,
          uploadedImages st = before ++ img :: after ->
          id img = imageId ->
          ~ In imageId (map id before) ->
          ~ In imageId (map id after) ->
          uploadedImages (handleRemoveImage imageId st) = before ++ after)
    /\ estimationResult (handleRemoveImage imageId st) = estimationResult st
    /\ isLoading (handleRemoveImage imageId st) = isLoading st
    /\ error (handleRemoveImage imageId st) = error st.
Proof.
  intros imageId st.
  assert (Habsent : forall st0, ~ In imageId (map id (uploadedImages st0)) ->
                                handleRemoveImage imageId st0 = st0).
  { intros st0 Hnin. unfold handleRemoveImage.
    rewrite (filter_absent imageId _ Hnin).
    apply app_state_eta. }
  repeat split.
  - apply Habsent.
  - apply Habsent. simpl. apply filter_removes.
  - intros before img after Hsplit Hid Hb Ha. simpl.
    rewrite Hsplit. now apply filter_present_once.
Qed.

Lemma handleRemoveImage_removes_that_image_witness :
  handleRemoveImage "id-c" twoImages = twoImages
  /\ uploadedImages (handleRemoveImage "id-a" twoImages) = [image_of doneB].
Proof.
  split.
  - apply (proj1 (handleRemoveImage_removes_that_image "id-c" twoImages)).
    simpl. intros [H|[H|[]]]; discriminate H.
  - destruct (handleRemoveImage_removes_that_image "id-a" twoImages)
      as (_ & _ & Hcut & _).
    apply (Hcut [] (image_of doneA) [image_of doneB]).
    + reflexivity.
    + reflexivity.
    + simpl. intros [].
    + simpl. intros [H|[]]. discriminate H.
Defined.

(** C8.  The call [getEstimate] issues is determined by the prompt and by
    the media types and previews of the images, in order: two requests made
    with the same prompt on collections that agree on these, whatever the
    ids, the file names, the other state cells and the credential, either
    both return without a call or both suspend on identical calls. *)
Theorem request_assembly_deterministic :
  forall (env1 env2 : Env) (st1 st2 : AppState),
    DEMOLITION_ESTIMATE_PROMPT env1 = DEMOLITION_ESTIMATE_PROMPT env2 ->
    map (fun img => (type (file img), preview img)) (uploadedImages st1) =
    map (fun img => (type (file img), preview img)) (uploadedImages st2) ->
    imageParts (uploadedImages st1) = imageParts (uploadedImages st2)
    /\ snd (getEstimate_begin env1 st1) = snd (getEstimate_begin env2 st2).
Proof.
  intros env1 env2 st1 st2 Hprompt Hsame.
  pose proof (imageParts_content _ _ Hsame) as Hparts.
  split; [exact Hparts|].
  assert (Hlen : List.length (uploadedImages st1) = List.length (uploadedImages st2)).
  { apply (f_equal (@List.length _)) in Hsame. now rewrite !length_map in Hsame. }
  unfold getEstimate_begin.
  rewrite Hlen, Hparts, Hprompt.
  destruct (Nat.eqb (List.length (uploadedImages st2)) 0); [reflexivity|].
  destruct (imageParts (uploadedImages st2)); reflexivity.
Qed.

Lemma request_assembly_deterministic_witness :
  snd (getEstimate_begin envWithKey twoImages)
  = snd (getEstimate_begin envNoKey twoImagesAgain).
Proof.
  apply (request_assembly_deterministic envWithKey envNoKey twoImages twoImagesAgain).
  - reflexivity.
  - reflexivity.
Defined.

(** C9.  For an image whose preview is a data URL, a comma-free header, a
    comma and a base64 payload, the part assembled for it in the call holds
    the media type of its file and exactly that payload, the text after the
    first comma. *)
Theorem image_part_type_and_payload :
  forall (env : Env) (st st' : AppState) (call : NetCall)
         (i : nat) (img : FileWithPreview) (header payload : string),
    getEstimate_begin env st = (st', Awaiting call) ->
    nth_error (uploadedImages st) i = Some img ->
    preview img = Some (header ++ String ","%char payload)%string ->
    has_comma header = false ->
    is_base64 payload = true ->
    nth_error (call_parts call) i =
      Some (mkGeminiImagePart (mkInlineData (type (file img)) (Some payload))).
Proof.
  intros env st st' call i img header payload Hbegin Hnth Hprev Hh Hp.
  apply getEstimate_begin_awaiting in Hbegin as (_ & Hparts & _).
  destruct (imageParts_nth _ _ i img Hparts Hnth) as (part & Hpart & ->).
  unfold imagePart in Hpart. rewrite Hprev in Hpart.
  rewrite (split_comma_payload header payload Hh (base64_has_no_comma _ Hp)) in Hpart.
  now injection Hpart as <-.
Qed.

Lemma image_part_type_and_payload_witness :
  nth_error
    [mkGeminiImagePart (mkInlineData "image/png" (Some "iVBORw0KGgo="));
     mkGeminiImagePart (mkInlineData "image/jpeg" (Some "/9j/4AAQ"))] 1
  = Some (mkGeminiImagePart (mkInlineData "image/jpeg" (Some "/9j/4AAQ"))).
Proof.
  apply (image_part_type_and_payload envWithKey twoImages
           (enterLoading twoImages)
           (mkNetCall "prompt"
              [mkGeminiImagePart (mkInlineData "image/png" (Some "iVBORw0KGgo="));
               mkGeminiImagePart (mkInlineData "image/jpeg" (Some "/9j/4AAQ"))])
           1 (image_of doneB) "data:image/jpeg;base64" "/9j/4AAQ").
  - reflexivity.
  - reflexivity.
  - reflexivity.
  - reflexivity.
  - reflexivity.
Defined.

(** C10.  [getEstimate] never writes the collection: after the code before
    the [await], after the code that runs when the promise settles, and
    after a whole run, on any of its paths, the collection is the one the
    request started from. *)
Theorem getEstimate_keeps_images :
  forall (env : Env) (o : Outcome) (st : AppState),
    uploadedImages (fst (getEstimate_begin env st)) = uploadedImages st
    /\ uploadedImages (getEstimate_resume o st) = uploadedImages st
    /\ uploadedImages (getEstimate env o st) = uploadedImages st.
Proof.
  intros env o st.
  pose proof (getEstimate_begin_images env st) as Hbegin.
  repeat split.
  - exact Hbegin.
  - apply getEstimate_resume_images.
  - unfold getEstimate.
    destruct (getEstimate_begin env st) as [st' [|call]]; simpl in Hbegin.
    + exact Hbegin.
    + now rewrite getEstimate_resume_images.
Qed.

(** * Further properties of the handlers *)

(** ** Lists cut to a bound *)

Lemma firstn_app_keep {A : Type} (n : nat) (l m : list A) :
  List.length l <= n ->
  firstn n (l ++ m) = l ++ firstn (n - List.length l) m.
Proof.
  intros Hle. rewrite firstn_app. now rewrite (firstn_all2 l Hle).
Qed.

Lemma firstn_app_again {A : Type} (n : nat) (l m : list A) :
  firstn n (firstn n l ++ m) = firstn n (l ++ m).
Proof.
  rewrite !firstn_app, firstn_firstn, Nat.min_id.
  destruct (Nat.le_gt_cases (List.length l) n) as [Hle|Hgt].
  - now rewrite (firstn_all2 l Hle).
  - rewrite length_firstn, (Nat.min_l n (List.length l)) by lia.
    replace (n - n) with 0 by lia.
    replace (n - List.length l) with 0 by lia.
    reflexivity.
Qed.

Lemma NoDup_firstn_ids {A : Type} (n : nat) (l : list A) :
  NoDup l -> NoDup (firstn n l).
Proof.
  intros Hnd. rewrite <- (firstn_skipn n l) in Hnd.
  now apply NoDup_app_remove_r in Hnd.
Qed.

Lemma map_id_filter_NoDup (f : FileWithPreview -> bool) (imgs : list FileWithPreview) :
  NoDup (map id imgs) -> NoDup (map id (filter f imgs)).
Proof.
  induction imgs as [|img imgs IH]; simpl; intros Hnd; [constructor|].
  inversion Hnd as [|x xs Hnin Hrest]; subst.
  destruct (f img); simpl; [|now apply IH].
  constructor; [|now apply IH].
  intros Hin. apply Hnin.
  apply in_map_iff in Hin as (y & Hy & Hin).
  apply filter_In in Hin as (Hin & _).
  apply in_map_iff. now exists y.
Qed.

Lemma filter_keeps_comm (a b : string) (imgs : list FileWithPreview) :
  filter (keeps a) (filter (keeps b) imgs) = filter (keeps b) (filter (keeps a) imgs).
Proof.
  induction imgs as [|img imgs IH]; simpl; [reflexivity|].
  destruct (keeps b img) eqn:Hb, (keeps a img) eqn:Ha; simpl;
    rewrite ?Ha, ?Hb, IH; reflexivity.
Qed.

(** ** Which requests reach the call *)

Lemma imageParts_none (imgs : list FileWithPreview) :
  imageParts imgs = None <-> exists img, In img imgs /\ preview img = None.
Proof.
  induction imgs as [|x imgs IH]; simpl.
  - split; [discriminate | intros (img & [] & _)].
  - unfold imagePart at 1. destruct (preview x) as [p|] eqn:Hp.
    + destruct (imageParts imgs) as [ps|].
      * split; [discriminate|].
        intros (img & [<-|Hin] & Hnone); [congruence|].
        destruct IH as [_ IH]. discriminate IH. now exists img.
      * split; [intros _|reflexivity].
        destruct IH as [IH _]. destruct (IH eq_refl) as (img & Hin & Hnone).
        exists img. auto.
    + split; [intros _|reflexivity]. exists x. auto.
Qed.

Lemma imageParts_some (imgs : list FileWithPreview) :
  (exists parts, imageParts imgs = Some parts)
  <-> (forall img, In img imgs -> preview img <> None).
Proof.
  split.
  - intros (parts & Hparts) img Hin Hnone.
    assert (Hn : imageParts imgs = None) by (apply imageParts_none; eauto).
    congruence.
  - intros Hall. destruct (imageParts imgs) as [parts|] eqn:E; [eauto|].
    apply imageParts_none in E as (img & Hin & Hnone).
    now destruct (Hall img Hin).
Qed.

Lemma imageParts_types (imgs : list FileWithPreview) :
  forall parts,
    imageParts imgs = Some parts ->
    map (fun part => mimeType (inlineData part)) parts =
    map (fun img => type (file img)) imgs.
Proof.
  induction imgs as [|x imgs IH]; simpl; intros parts Hp.
  - now injection Hp as <-.
  - unfold imagePart in Hp. destruct (preview x); [|discriminate].
    destruct (imageParts imgs) as [ps|]; [|discriminate].
    injection Hp as <-. simpl. now rewrite (IH ps).
Qed.

Lemma getEstimate_begin_calls (env : Env) (st : AppState) :
  uploadedImages st <> [] ->
  (forall img, In img (uploadedImages st) -> preview img <> None) ->
  exists st' call, getEstimate_begin env st = (st', Awaiting call).
Proof.
  intros Hne Hall.
  apply imageParts_some in Hall as (parts & Hparts).
  rewrite (getEstimate_begin_nonempty env st Hne), Hparts. eauto.
Qed.

Lemma getEstimate_begin_no_key (env : Env) (st : AppState)
    (parts : list GeminiImagePart) :
  truthy (VITE_GEMINI_API_KEY env) = false ->
  uploadedImages st <> [] ->
  imageParts (uploadedImages st) = Some parts ->
  getEstimate_begin env st =
    (setIsLoading false (setError (Some msgNoApiKey) (enterLoading st)),
     Awaiting (mkNetCall (DEMOLITION_ESTIMATE_PROMPT env) parts)).
Proof.
  intros Hkey Hne Hparts.
  rewrite (getEstimate_begin_nonempty env st Hne), Hparts.
  unfold checkApiKey. now rewrite Hkey.
Qed.

(** X1.  [getEstimate] reaches the call exactly when the collection is not
    empty and every image in it has a preview: an empty collection stops at
    the guard, and one [null] preview makes the [map] throw before the
    call. *)
Theorem getEstimate_calls_iff :
  forall (env : Env) (st : AppState),
    (exists st' call, getEstimate_begin env st = (st', Awaiting call))
    <-> (uploadedImages st <> []
         /\ forall img, In img (uploadedImages st) -> preview img <> None).
Proof.
  intros env st. split.
  - intros (st' & call & Hbegin).
    apply getEstimate_begin_awaiting in Hbegin as (Hne & Hparts & _).
    split; [exact Hne|].
    apply imageParts_some. eauto.
  - intros (Hne & Hall). now apply getEstimate_begin_calls.
Qed.

Lemma getEstimate_calls_iff_witness :
  exists st' call, getEstimate_begin envNoKey twoImages = (st', Awaiting call).
Proof.
  apply (getEstimate_calls_iff envNoKey twoImages). split.
  - discriminate.
  - simpl. intros img [<-|[<-|[]]]; discriminate.
Defined.

(** X2.  Once a batch with a failed read is in the collection, a request
    for an estimate never reaches the call: it returns with the spinner
    off, no result, and the error made of the fixed prefix and the message
    of the [TypeError] that [null.split] raises. *)
Theorem failed_read_blocks_estimate :
  forall (env : Env) (st : AppState) (files : list File)
         (completions : list Completion) (c : Completion),
    Permutation (map done_file completions) files ->
    List.length (uploadedImages st) + List.length files <= 10 ->
    In c completions ->
    reader_result c = None ->
    let st' := fst (getEstimate_begin env
                      (handleImageUpload (Some files) completions st)) in
    snd (getEstimate_begin env (handleImageUpload (Some files) completions st))
      = Returned
    /\ error st' = Some (msgErrorPrefix ++ nullSplitMessage env)%string
    /\ isLoading st' = false
    /\ estimationResult st' = None.
Proof.
  intros env st files completions c HP Hroom Hin Hfail.
  pose proof (completions_count files completions HP) as Hcount.
  set (st1 := handleImageUpload (Some files) completions st).
  assert (Hall : uploadedImages st1 = uploadedImages st ++ map image_of completions).
  { unfold st1. rewrite handleImageUpload_complete by (assumption || lia).
    apply firstn_all2. rewrite length_app, length_map. lia. }
  assert (Hbad : In (image_of c) (uploadedImages st1)).
  { rewrite Hall. apply in_or_app. right. now apply in_map. }
  assert (Hne : uploadedImages st1 <> []).
  { intros Hnil. rewrite Hnil in Hbad. exact Hbad. }
  assert (Hnone : imageParts (uploadedImages st1) = None).
  { apply imageParts_none. exists (image_of c). split; [exact Hbad | exact Hfail]. }
  cbv zeta. fold st1.
  rewrite (getEstimate_begin_nonempty env st1 Hne), Hnone. simpl.
  repeat split.
  unfold checkApiKey. destruct (negb _); reflexivity.
Qed.

Lemma failed_read_blocks_estimate_witness :
  snd (getEstimate_begin envWithKey
         (handleImageUpload (Some [photoA; photoB]) [doneB; failedA] initialState))
  = Returned.
Proof.
  apply (failed_read_blocks_estimate envWithKey initialState
           [photoA; photoB] [doneB; failedA] failedA).
  - apply perm_swap.
  - simpl. lia.
  - right. left. reflexivity.
  - reflexivity.
Defined.

(** X3.  Removing an id unblocks the estimate when every image without a
    preview carries that id and some image carries another one: after the
    removal the request reaches the call. *)
Theorem removing_failed_image_unblocks :
  forall (env : Env) (st : AppState) (imageId : string),
    (forall img, In img (uploadedImages st) -> preview img = None ->
                 id img = imageId) ->
    (exists img, In img (uploadedImages st) /\ id img <> imageId) ->
    exists st' call,
      getEstimate_begin env (handleRemoveImage imageId st) = (st', Awaiting call).
Proof.
  intros env st imageId Hbad (kept & Hin & Hother).
  apply getEstimate_begin_calls; simpl.
  - intros Hnil.
    assert (Hk : In kept (filter (keeps imageId) (uploadedImages st))).
    { apply filter_In. split; [exact Hin|].
      unfold keeps. now destruct (String.eqb_spec (id kept) imageId). }
    rewrite Hnil in Hk. exact Hk.
  - intros img Himg Hnone.
    apply filter_In in Himg as (Himg & Hkeep).
    unfold keeps in Hkeep.
    rewrite (Hbad img Himg Hnone), String.eqb_refl in Hkeep. discriminate.
Qed.

Lemma removing_failed_image_unblocks_witness :
  exists st' call,
    getEstimate_begin envWithKey
      (handleRemoveImage "id-a"
         (handleImageUpload (Some [photoA; photoB]) [doneB; failedA] initialState))
    = (st', Awaiting call).
Proof.
  apply (removing_failed_image_unblocks envWithKey
           (handleImageUpload (Some [photoA; photoB]) [doneB; failedA] initialState)
           "id-a").
  - simpl. intros img [<-|[<-|[]]] H; [discriminate H | reflexivity].
  - exists (image_of doneB). split; [left; reflexivity | discriminate].
Defined.

(** X4.  The call carries the prompt constant and one part per image of the
    collection, in collection order, each with the media type of its file;
    in every state the component can reach that is between 1 and 10
    parts. *)
Theorem call_has_one_part_per_image :
  forall (env : Env) (s : Sys) (st' : AppState) (call : NetCall),
    reachable env s ->
    getEstimate_begin env (app s) = (st', Awaiting call) ->
    call_prompt call = DEMOLITION_ESTIMATE_PROMPT env
    /\ map (fun part => mimeType (inlineData part)) (call_parts call) =
       map (fun img => type (file img)) (uploadedImages (app s))
    /\ 1 <= List.length (call_parts call) <= 10.
Proof.
  intros env s st' call Hreach Hbegin.
  apply getEstimate_begin_awaiting in Hbegin as (Hne & Hparts & Hprompt & _).
  pose proof (reachable_size env s Hreach) as Hsz.
  rewrite (imageParts_length _ _ Hparts).
  repeat split.
  - exact Hprompt.
  - now apply imageParts_types.
  - destruct (uploadedImages (app s)); [congruence | simpl; lia].
  - exact Hsz.
Qed.

Lemma call_has_one_part_per_image_witness :
  map (fun part => mimeType (inlineData part))
    [mkGeminiImagePart (mkInlineData "image/png" (Some "iVBORw0KGgo="))]
  = ["image/png"].
Proof.
  destruct (call_has_one_part_per_image envWithKey
              (mkSys oneImage 0) (enterLoading oneImage)
              (mkNetCall "prompt"
                 [mkGeminiImagePart (mkInlineData "image/png" (Some "iVBORw0KGgo="))]))
    as (_ & Htypes & _).
  - exists [FilesSelected (Some [photoA]) [doneA]]. reflexivity.
  - reflexivity.
  - exact Htypes.
Defined.

(** ** Batches and the cap *)

(** X5.  An upload never displaces an image already in the collection: the
    old images stay in place and the batch fills the room left up to 10
    with its images in completion order, so what is dropped is the tail of
    the batch.  While the upload area is enabled there is room, and the
    image of the reader that finishes first is kept. *)
Theorem upload_keeps_old_images :
  forall (st : AppState) (files : list File) (completions : list Completion),
    List.length (uploadedImages st) <= 10 ->
    Permutation (map done_file completions) files ->
    let st' := handleImageUpload (Some files) completions st in
    uploadedImages st' =
      uploadedImages st
      ++ firstn (10 - List.length (uploadedImages st)) (map image_of completions)
    /\ (forall c rest,
          uploadDisabled st = false ->
          completions = c :: rest ->
          In (image_of c) (uploadedImages st')).
Proof.
  intros st files completions Hsz HP st'.
  assert (Heq : uploadedImages st' =
                uploadedImages st
                ++ firstn (10 - List.length (uploadedImages st))
                     (map image_of completions)).
  { unfold st'. rewrite handleImageUpload_complete by assumption.
    now apply firstn_app_keep. }
  split; [exact Heq|].
  intros c rest Hen ->. rewrite Heq. apply in_or_app. right.
  unfold uploadDisabled in Hen. apply orb_false_iff in Hen as [_ Hlt].
  apply Nat.leb_gt in Hlt.
  destruct (10 - List.length (uploadedImages st)) as [|k] eqn:Hk; [lia|].
  simpl. unfold firstn. now left.
Qed.

Lemma upload_keeps_old_images_witness :
  In (image_of doneB)
     (uploadedImages
        (handleImageUpload (Some [photoA; photoB]) [doneB; doneA] oneImage)).
Proof.
  destruct (upload_keeps_old_images oneImage [photoA; photoB] [doneB; doneA])
    as (_ & Hfirst).
  - simpl. lia.
  - apply perm_swap.
  - apply (Hfirst doneB [doneA]); reflexivity.
Defined.

(** X6.  Two batches stored one after the other amount to one batch with
    the images of the first followed by the images of the second: the
    collection is the old one, then the first batch, then the second, cut
    to 10. *)
Theorem uploads_compose :
  forall (st : AppState) (files1 files2 : list File)
         (completions1 completions2 : list Completion),
    List.length (uploadedImages st) <= 10 ->
    Permutation (map done_file completions1) files1 ->
    Permutation (map done_file completions2) files2 ->
    uploadedImages
      (handleImageUpload (Some files2) completions2
         (handleImageUpload (Some files1) completions1 st))
    = firstn 10 (uploadedImages st
                 ++ map image_of completions1 ++ map image_of completions2).
Proof.
  intros st files1 files2 cs1 cs2 Hsz HP1 HP2.
  rewrite (handleImageUpload_complete files2 cs2 _ HP2)
    by now apply handleImageUpload_size.
  rewrite (handleImageUpload_complete files1 cs1 st HP1 Hsz).
  now rewrite firstn_app_again, <- app_assoc.
Qed.

Lemma uploads_compose_witness :
  uploadedImages
    (handleImageUpload (Some [photoB]) [doneB]
       (handleImageUpload (Some [photoA]) [doneA] initialState))
  = [image_of doneA; image_of doneB].
Proof.
  rewrite (uploads_compose initialState [photoA] [photoB] [doneA] [doneB]).
  - reflexivity.
  - simpl. lia.
  - apply Permutation_refl.
  - apply Permutation_refl.
Defined.

(** ** Two batches whose readers overlap *)

Lemma fold_onloadend2_waits (n1 n2 : nat) (events : list BatchEvent) :
  forall acc1 acc2 st,
    List.length acc1 + List.length (ofFirst events) < n1 ->
    List.length acc2 + List.length (ofSecond events) < n2 ->
    fold_left (onloadend2 n1 n2) events ((acc1, acc2), st) =
      ((acc1 ++ map image_of (ofFirst events),
        acc2 ++ map image_of (ofSecond events)), st).
Proof.
  induction events as [|[c|c] events IH]; intros acc1 acc2 st H1 H2;
    cbn [ofFirst ofSecond List.length map fold_left onloadend2 fst snd] in *.
  - now rewrite !app_nil_r.
  - assert (E : onloadend n1 (acc1, st) c = (acc1 ++ [image_of c], st)).
    { unfold onloadend; cbn [fst snd].
      assert (Hne : Nat.eqb (List.length (acc1 ++ [image_of c])) n1 = false).
      { apply Nat.eqb_neq. rewrite length_app; simpl. lia. }
      now rewrite Hne. }
    rewrite E; cbn [fst snd]. rewrite IH.
    + now rewrite <- app_assoc.
    + rewrite length_app; simpl. lia.
    + exact H2.
  - assert (E : onloadend n2 (acc2, st) c = (acc2 ++ [image_of c], st)).
    { unfold onloadend; cbn [fst snd].
      assert (Hne : Nat.eqb (List.length (acc2 ++ [image_of c])) n2 = false).
      { apply Nat.eqb_neq. rewrite length_app; simpl. lia. }
      now rewrite Hne. }
    rewrite E; cbn [fst snd]. rewrite IH.
    + now rewrite <- app_assoc.
    + exact H1.
    + rewrite length_app; simpl. lia.
Qed.

Lemma fold_onloadend2_second_only (n1 n2 : nat) (cs : list Completion) :
  forall acc1 acc2 st,
    fold_left (onloadend2 n1 n2) (map OfSecond cs) ((acc1, acc2), st) =
      ((acc1, fst (fold_left (onloadend n2) cs (acc2, st))),
       snd (fold_left (onloadend n2) cs (acc2, st))).
Proof.
  induction cs as [|c cs IH]; intros acc1 acc2 st; simpl; [reflexivity|].
  destruct (onloadend n2 (acc2, st) c) as [acc2' st'] eqn:E. simpl.
  apply IH.
Qed.

Lemma fold_onloadend_resume (n : nat) (done rest : list Completion) (st : AppState) :
  List.length done < n ->
  fold_left (onloadend n) (done ++ rest) ([], st) =
  fold_left (onloadend n) rest (map image_of done, st).
Proof.
  intros Hlt. rewrite fold_left_app.
  now rewrite fold_onloadend_waits by (simpl; lia).
Qed.

Lemma fold_onloadend2_first_only (n1 n2 : nat) (cs : list Completion) :
  forall acc1 acc2 st,
    fold_left (onloadend2 n1 n2) (map OfFirst cs) ((acc1, acc2), st) =
      ((fst (fold_left (onloadend n1) cs (acc1, st)), acc2),
       snd (fold_left (onloadend n1) cs (acc1, st))).
Proof.
  induction cs as [|c cs IH]; intros acc1 acc2 st; simpl; [reflexivity|].
  destruct (onloadend n1 (acc1, st) c) as [acc1' st'] eqn:E. simpl.
  apply IH.
Qed.

Lemma onloadend_last (n : nat) (done : list Completion) (c : Completion)
    (st : AppState) :
  S (List.length done) = n ->
  onloadend n (map image_of done, st) c =
  fold_left (onloadend n) (done ++ [c]) ([], st).
Proof.
  intros Hn. rewrite fold_onloadend_resume by lia. reflexivity.
Qed.

Lemma overlap_first_finishes_first (st : AppState) (files1 files2 : list File)
    (mixed : list BatchEvent) (last1 : Completion) (remaining2 : list Completion) :
  S (List.length (ofFirst mixed)) = List.length files1 ->
  List.length (ofSecond mixed) < List.length files2 ->
  handleImageUpload2 files1 files2
    (mixed ++ OfFirst last1 :: map OfSecond remaining2) st
  = handleImageUpload (Some files2) (ofSecond mixed ++ remaining2)
      (handleImageUpload (Some files1) (ofFirst mixed ++ [last1]) st).
Proof.
  intros H1 H2.
  unfold handleImageUpload2, handleImageUpload.
  rewrite fold_left_app.
  rewrite fold_onloadend2_waits by (simpl; lia).
  cbn [fold_left onloadend2 fst snd app].
  rewrite fold_onloadend2_second_only. cbn [snd].
  rewrite (fold_onloadend_resume (List.length files2) (ofSecond mixed) remaining2)
    by exact H2.
  rewrite !app_nil_l.
  now rewrite (onloadend_last (List.length files1) (ofFirst mixed) last1 st H1).
Qed.

Lemma overlap_second_finishes_first (st : AppState) (files1 files2 : list File)
    (mixed : list BatchEvent) (last2 : Completion) (remaining1 : list Completion) :
  S (List.length (ofSecond mixed)) = List.length files2 ->
  List.length (ofFirst mixed) < List.length files1 ->
  handleImageUpload2 files1 files2
    (mixed ++ OfSecond last2 :: map OfFirst remaining1) st
  = handleImageUpload (Some files1) (ofFirst mixed ++ remaining1)
      (handleImageUpload (Some files2) (ofSecond mixed ++ [last2]) st).
Proof.
  intros H2 H1.
  unfold handleImageUpload2, handleImageUpload.
  rewrite fold_left_app.
  rewrite fold_onloadend2_waits by (simpl; lia).
  cbn [fold_left onloadend2 fst snd app].
  rewrite fold_onloadend2_first_only. cbn [snd].
  rewrite (fold_onloadend_resume (List.length files1) (ofFirst mixed) remaining1)
    by exact H1.
  rewrite !app_nil_l.
  now rewrite (onloadend_last (List.length files2) (ofSecond mixed) last2 st H2).
Qed.

(** X7.  No update is lost when the readers of two batches overlap: however
    the callbacks are interleaved, the outcome is that of storing one batch
    and then the other, in the order in which their last readers finish.
    The batch whose last reader finishes while the other still has readers
    running is stored first. *)
Theorem overlapping_uploads_serialize :
  forall (st : AppState) (files1 files2 : list File)
         (mixed : list BatchEvent) (last : Completion)
         (remaining : list Completion),
    (S (List.length (ofFirst mixed)) = List.length files1 ->
     List.length (ofSecond mixed) < List.length files2 ->
     handleImageUpload2 files1 files2
       (mixed ++ OfFirst last :: map OfSecond remaining) st
     = handleImageUpload (Some files2) (ofSecond mixed ++ remaining)
         (handleImageUpload (Some files1) (ofFirst mixed ++ [last]) st))
    /\ (S (List.length (ofSecond mixed)) = List.length files2 ->
        List.length (ofFirst mixed) < List.length files1 ->
        handleImageUpload2 files1 files2
          (mixed ++ OfSecond last :: map OfFirst remaining) st
        = handleImageUpload (Some files1) (ofFirst mixed ++ remaining)
            (handleImageUpload (Some files2) (ofSecond mixed ++ [last]) st)).
Proof.
  intros st files1 files2 mixed last remaining. split.
  - apply overlap_first_finishes_first.
  - apply overlap_second_finishes_first.
Qed.

Lemma overlapping_uploads_serialize_witness :
  uploadedImages
    (handleImageUpload2 [photoA] [photoB; photoA]
       [OfSecond doneB; OfFirst doneA; OfSecond failedA] initialState)
  = [image_of doneA; image_of doneB; image_of failedA].
Proof.
  refine (f_equal uploadedImages
            (proj1 (overlapping_uploads_serialize initialState
                      [photoA] [photoB; photoA]
                      [OfSecond doneB] doneA [failedA]) _ _)).
  - reflexivity.
  - simpl. lia.
Defined.

(** ** Ids and removal *)

(** X8.  Ids stay unique: if the ids of the collection are pairwise
    distinct and [crypto.randomUUID()] hands the batch ids that are distinct
    from one another and from those of the collection, the ids are still
    pairwise distinct after the upload; a removal keeps them distinct
    without any condition. *)
Theorem ids_stay_unique :
  forall (st : AppState) (files : list File) (completions : list Completion)
         (imageId : string),
    NoDup (map id (uploadedImages st)) ->
    NoDup (map uuid completions) ->
    (forall c, In c completions -> ~ In (uuid c) (map id (uploadedImages st))) ->
    Permutation (map done_file completions) files ->
    NoDup (map id (uploadedImages (handleImageUpload (Some files) completions st)))
    /\ NoDup (map id (uploadedImages (handleRemoveImage imageId st))).
Proof.
  intros st files completions imageId Hnd Hnew Hfresh HP. split.
  - destruct files as [|f fs].
    + now rewrite handleImageUpload_empty.
    + rewrite handleImageUpload_nonempty by (assumption || discriminate).
      simpl. rewrite <- firstn_map. apply NoDup_firstn_ids.
      rewrite map_app, map_map. simpl.
      apply NoDup_app; [exact Hnd | exact Hnew |].
      intros x Hx Hy. apply in_map_iff in Hy as (c & <- & Hc).
      now apply (Hfresh c Hc).
  - simpl. now apply map_id_filter_NoDup.
Qed.

Lemma ids_stay_unique_witness :
  NoDup (map id (uploadedImages
                   (handleImageUpload (Some [photoB]) [doneB] oneImage))).
Proof.
  apply (ids_stay_unique oneImage [photoB] [doneB] "id-a").
  - simpl. constructor; [intros [] | constructor].
  - simpl. constructor; [intros [] | constructor].
  - simpl. intros c [<-|[]] [H|[]]. discriminate H.
  - apply Permutation_refl.
Defined.

(** X9.  Removal takes out every image that carries the id and no other:
    an image is in the collection afterwards exactly when it was there
    before and carries another id.  The collection does not grow, and two
    removals give the same state in either order. *)
Theorem removal_membership_and_order :
  forall (a b : string) (st : AppState),
    (forall img,
       In img (uploadedImages (handleRemoveImage a st))
       <-> In img (uploadedImages st) /\ id img <> a)
    /\ List.length (uploadedImages (handleRemoveImage a st))
       <= List.length (uploadedImages st)
    /\ handleRemoveImage a (handleRemoveImage b st)
       = handleRemoveImage b (handleRemoveImage a st).
Proof.
  intros a b st. split; [|split].
  - intros img. simpl. rewrite filter_In. unfold keeps.
    destruct (String.eqb_spec (id img) a) as [Heq|Hne]; simpl.
    + split; [intros (_ & H); discriminate H | intros (_ & H); contradiction].
    + split; intros (Hin & _); auto.
  - simpl. apply filter_length_le.
  - unfold handleRemoveImage. simpl. now rewrite filter_keeps_comm.
Qed.

(** X10.  Uploading one file and then removing the id it was given brings
    the state back, provided the id is new to the collection and the
    collection had room. *)
Theorem upload_then_remove_restores :
  forall (st : AppState) (c : Completion),
    ~ In (uuid c) (map id (uploadedImages st)) ->
    List.length (uploadedImages st) < 10 ->
    handleRemoveImage (uuid c)
      (handleImageUpload (Some [done_file c]) [c] st) = st.
Proof.
  intros st c Hfresh Hroom.
  rewrite handleImageUpload_nonempty
    by (apply Permutation_refl || discriminate).
  unfold handleRemoveImage, setUploadedImages.
  cbn [uploadedImages estimationResult isLoading error map].
  rewrite firstn_all2 by (rewrite length_app; simpl; lia).
  rewrite filter_app, (filter_absent (uuid c) _ Hfresh).
  cbn [filter]. unfold keeps at 1. cbn [id image_of].
  rewrite String.eqb_refl. cbn [negb].
  rewrite app_nil_r. apply app_state_eta.
Qed.

Lemma upload_then_remove_restores_witness :
  handleRemoveImage "id-b" (handleImageUpload (Some [photoB]) [doneB] oneImage)
  = oneImage.
Proof.
  apply (upload_then_remove_restores oneImage doneB).
  - simpl. intros [H|[]]. discriminate H.
  - simpl. lia.
Defined.

(** ** The estimate flow beyond the main path *)

(** X11.  Without the credential the request still goes out, but behind a
    switched-off spinner: at the [await] the loading flag is off, the error
    is the configuration message, and the estimate button is enabled again
    while the call is outstanding.  A resolved call stores the result and
    leaves that message in place; a call rejected with an [Error] replaces
    it by the prefixed message of the error. *)
Theorem getEstimate_without_key :
  forall (env : Env) (st : AppState) (parts : list GeminiImagePart),
    truthy (VITE_GEMINI_API_KEY env) = false ->
    uploadedImages st <> [] ->
    imageParts (uploadedImages st) = Some parts ->
    exists st1,
      getEstimate_begin env st =
        (st1, Awaiting (mkNetCall (DEMOLITION_ESTIMATE_PROMPT env) parts))
      /\ isLoading st1 = false
      /\ error st1 = Some msgNoApiKey
      /\ estimationResult st1 = None
      /\ estimateDisabled st1 = false
      /\ (forall resultText,
            let st2 := getEstimate_resume (Resolved resultText) st1 in
            estimationResult st2 = Some (mkEstimationResult resultText)
            /\ error st2 = Some msgNoApiKey)
      /\ (forall message,
            let st2 := getEstimate_resume (Rejected (ErrorObject message)) st1 in
            error st2 = Some (msgErrorPrefix ++ message)%string
            /\ estimationResult st2 = None).
Proof.
  intros env st parts Hkey Hne Hparts.
  exists (setIsLoading false (setError (Some msgNoApiKey) (enterLoading st))).
  rewrite (getEstimate_begin_no_key env st parts Hkey Hne Hparts). simpl.
  repeat split.
  unfold estimateDisabled. simpl.
  destruct (uploadedImages st); [congruence | reflexivity].
Qed.

Lemma getEstimate_without_key_witness :
  exists st1,
    getEstimate_begin (mkEnv (Some "") "prompt" "") oneImage =
      (st1, Awaiting (mkNetCall "prompt"
              [mkGeminiImagePart (mkInlineData "image/png" (Some "iVBORw0KGgo="))]))
    /\ estimateDisabled st1 = false.
Proof.
  destruct (getEstimate_without_key (mkEnv (Some "") "prompt" "") oneImage
              [mkGeminiImagePart (mkInlineData "image/png" (Some "iVBORw0KGgo="))])
    as (st1 & Hbegin & _ & _ & _ & Hen & _).
  - reflexivity.
  - discriminate.
  - reflexivity.
  - exists st1. split; assumption.
Defined.

(** X12.  A run of [getEstimate] never ends silently: whatever the state,
    the credential and the way the promise settles, afterwards a result or
    an error is set; and if the collection was not empty the spinner is
    off. *)
Theorem getEstimate_ends_with_outcome :
  forall (env : Env) (o : Outcome) (st : AppState),
    (estimationResult (getEstimate env o st) <> None
     \/ error (getEstimate env o st) <> None)
    /\ (uploadedImages st <> [] -> isLoading (getEstimate env o st) = false).
Proof.
  intros env o st. unfold getEstimate.
  destruct (uploadedImages st) as [|img imgs] eqn:Himgs.
  - rewrite (getEstimate_begin_empty env st Himgs). simpl.
    split; [right; discriminate | congruence].
  - assert (Hne : uploadedImages st <> []) by (rewrite Himgs; discriminate).
    rewrite (getEstimate_begin_nonempty env st Hne), Himgs.
    destruct (imageParts (img :: imgs)) as [parts|].
    + destruct o as [t|[m|]]; simpl;
        (split; [(left; discriminate) || (right; discriminate) | reflexivity]).
    + simpl. split; [right; discriminate | reflexivity].
Qed.

Lemma getEstimate_ends_with_outcome_witness :
  isLoading (getEstimate envNoKey (Rejected OtherValue) twoImages) = false.
Proof.
  apply (getEstimate_ends_with_outcome envNoKey (Rejected OtherValue) twoImages).
  discriminate.
Defined.

(** ** Invariants of the component *)

Lemma step_loading_no_result (env : Env) (s s' : Sys) (e : Event) :
  (isLoading (app s) = true -> estimationResult (app s) = None) ->
  step env s e = Some s' ->
  isLoading (app s') = true -> estimationResult (app s') = None.
Proof.
  intros Hinv Hstep. destruct e as [files cs|imageId| |o]; simpl in Hstep.
  - injection Hstep as <-. simpl.
    destruct (handleImageUpload_frame files cs (app s)) as (-> & -> & _).
    exact Hinv.
  - injection Hstep as <-. simpl. exact Hinv.
  - unfold getEstimate_begin in Hstep.
    destruct (Nat.eqb (List.length (uploadedImages (app s))) 0).
    + injection Hstep as <-. simpl. exact Hinv.
    + destruct (imageParts (uploadedImages (app s)));
        injection Hstep as <-; simpl; intros _;
        unfold checkApiKey; destruct (negb _); reflexivity.
  - destruct (inflight s); [discriminate|].
    injection Hstep as <-. destruct o as [t|err]; simpl; discriminate.
Qed.

(** X13.  In every state the handlers can reach, with or without the
    credential and with any number of overlapping requests, the result cell
    is empty while the loading flag is on; so the result block is rendered
    exactly when a result is stored. *)
Theorem no_result_while_loading :
  forall (env : Env) (s : Sys),
    reachable env s ->
    (isLoading (app s) = true -> estimationResult (app s) = None)
    /\ showsResult (app s) =
       match estimationResult (app s) with Some _ => true | None => false end.
Proof.
  intros env s [evs Hrun].
  assert (Hinv : isLoading (app s) = true -> estimationResult (app s) = None).
  { apply (run_invariant (step env)
             (fun s => isLoading (app s) = true -> estimationResult (app s) = None)
             (fun s0 e s1 => step_loading_no_result env s0 s1 e)
             evs initialSys s); [discriminate | assumption]. }
  split; [exact Hinv|].
  unfold showsResult.
  destruct (estimationResult (app s)) eqn:Hres; [|reflexivity].
  destruct (isLoading (app s)); [|reflexivity].
  discriminate (Hinv eq_refl).
Qed.

Lemma no_result_while_loading_witness :
  showsResult (mkAppState [image_of doneA] (Some (mkEstimationResult "ok"))
                 false (Some msgNoApiKey)) = true.
Proof.
  apply (no_result_while_loading envNoKey
           (mkSys (mkAppState [image_of doneA] (Some (mkEstimationResult "ok"))
                     false (Some msgNoApiKey)) 0)).
  exists successfulSession. reflexivity.
Defined.

Lemma stepUI_ui_invariant (env : Env) (s s' : Sys) (e : Event) :
  truthy (VITE_GEMINI_API_KEY env) = true ->
  ui_invariant s ->
  stepUI env s e = Some s' ->
  ui_invariant s'.
Proof.
  intros Hkey Hinv Hstep. unfold ui_invariant in *.
  destruct e as [files cs|imageId| |o]; simpl in Hstep.
  - injection Hstep as <-. simpl.
    destruct (handleImageUpload_frame files cs (app s)) as (-> & -> & ->).
    exact Hinv.
  - injection Hstep as <-. simpl. exact Hinv.
  - destruct (estimateDisabled (app s)) eqn:Hdis; [discriminate|].
    unfold estimateDisabled in Hdis.
    apply orb_false_iff in Hdis as [Hload Hlen].
    assert (Hne : uploadedImages (app s) <> []).
    { intros Hnil. rewrite Hnil in Hlen. discriminate. }
    assert (Hidle : inflight s = 0).
    { destruct (inflight s) as [|[|n]]; [reflexivity | | contradiction].
      destruct Hinv as (Hl & _). congruence. }
    rewrite (getEstimate_begin_nonempty env (app s) Hne) in Hstep.
    rewrite (checkApiKey_with_key env _ Hkey) in Hstep.
    destruct (imageParts (uploadedImages (app s)));
      injection Hstep as <-; simpl; rewrite ?Hidle; simpl; auto.
  - destruct (inflight s) as [|[|n]]; [discriminate | | contradiction].
    injection Hstep as <-. simpl.
    destruct o as [t|[m|]]; reflexivity.
Qed.

(** X14.  With the credential set and estimates requested only through the
    enabled button, at most one call is outstanding at any time; the
    spinner shows exactly while one is; and while one is, there is neither
    a result nor an error, and the estimate button and the upload area are
    disabled. *)
Theorem one_call_at_a_time :
  forall (env : Env) (s : Sys),
    truthy (VITE_GEMINI_API_KEY env) = true ->
    reachableUI env s ->
    inflight s <= 1
    /\ (isLoading (app s) = true <-> inflight s = 1)
    /\ (inflight s = 1 ->
        estimationResult (app s) = None
        /\ error (app s) = None
        /\ estimateDisabled (app s) = true
        /\ uploadDisabled (app s) = true).
Proof.
  intros env s Hkey [evs Hrun].
  assert (Hinv : ui_invariant s).
  { apply (run_invariant (stepUI env) ui_invariant
             (fun s0 e s1 => stepUI_ui_invariant env s0 s1 e Hkey)
             evs initialSys s); [reflexivity | assumption]. }
  unfold ui_invariant in Hinv. unfold estimateDisabled, uploadDisabled.
  destruct (inflight s) as [|[|n]]; [| |contradiction].
  - repeat split; try lia; intros H; congruence.
  - destruct Hinv as (Hl & Hr & He). rewrite Hl. repeat split; auto.
Qed.

Lemma one_call_at_a_time_witness :
  estimateDisabled (enterLoading oneImage) = true.
Proof.
  apply (one_call_at_a_time envWithKey (mkSys (enterLoading oneImage) 1)).
  - reflexivity.
  - exists [FilesSelected (Some [photoA]) [doneA]; EstimateClicked]. reflexivity.
  - reflexivity.
Defined.

(** X15.  Without the credential the button does not hold back a second
    request: from any state where it is enabled and every image has a
    preview, two clicks in a row are both accepted and leave two more calls
    outstanding. *)
Theorem double_submit_without_key :
  forall (env : Env) (s : Sys),
    truthy (VITE_GEMINI_API_KEY env) = false ->
    estimateDisabled (app s) = false ->
    (forall img, In img (uploadedImages (app s)) -> preview img <> None) ->
    exists s',
      run (stepUI env) [EstimateClicked; EstimateClicked] s = Some s'
      /\ inflight s' = S (S (inflight s))
      /\ uploadedImages (app s') = uploadedImages (app s).
Proof.
  intros env s Hkey Hen Hall.
  assert (Hne : uploadedImages (app s) <> []).
  { unfold estimateDisabled in Hen. apply orb_false_iff in Hen as [_ Hlen].
    intros Hnil. rewrite Hnil in Hlen. discriminate. }
  apply imageParts_some in Hall as (parts & Hparts).
  pose proof (getEstimate_begin_no_key env (app s) parts Hkey Hne Hparts) as Hb1.
  set (st1 := setIsLoading false
                (setError (Some msgNoApiKey) (enterLoading (app s)))) in *.
  assert (Hen1 : estimateDisabled st1 = false).
  { unfold estimateDisabled, st1. simpl.
    destruct (uploadedImages (app s)); [congruence | reflexivity]. }
  pose proof (getEstimate_begin_no_key env st1 parts Hkey Hne Hparts) as Hb2.
  exists (mkSys (setIsLoading false
                   (setError (Some msgNoApiKey) (enterLoading st1)))
            (S (S (inflight s)))).
  simpl. rewrite Hen, Hb1. simpl. rewrite Hen1, Hb2. simpl.
  repeat split.
Qed.

Lemma double_submit_without_key_witness :
  exists s',
    run (stepUI envNoKey) [EstimateClicked; EstimateClicked] (mkSys oneImage 0)
      = Some s'
    /\ inflight s' = 2.
Proof.
  destruct (double_submit_without_key envNoKey (mkSys oneImage 0))
    as (s' & Hrun & Hn & _).
  - reflexivity.
  - reflexivity.
  - simpl. intros img [<-|[]]. discriminate.
  - exists s'. split; assumption.
Defined.

(** X16.  What [split(',')[1]] gives outside the one-comma case: for a
    preview without a comma the part is still built, with [data] undefined;
    for a preview with more commas, [data] is only the text between the
    first and the second comma. *)
Theorem image_part_data_edges :
  forall (img : FileWithPreview) (p : string),
    preview img = Some p ->
    (has_comma p = false ->
       imagePart img =
         Some (mkGeminiImagePart (mkInlineData (type (file img)) None)))
    /\ (forall header segment rest,
          p = (header ++ String ","%char (segment ++ String ","%char rest))%string ->
          has_comma header = false ->
          has_comma segment = false ->
          imagePart img =
            Some (mkGeminiImagePart
                    (mkInlineData (type (file img)) (Some segment)))).
Proof.
  intros img p Hp. unfold imagePart. rewrite Hp. split.
  - intros Hnone. now rewrite (split_comma_plain p Hnone).
  - intros header segment rest -> Hh Hs.
    rewrite (split_comma_at_first header _ Hh).
    now rewrite (split_comma_at_first segment rest Hs).
Qed.

Lemma image_part_data_edges_witness :
  imagePart (mkFileWithPreview "id-t" (mkFile "t.txt" "text/plain")
               (Some "data:text/plain,a,b"))
  = Some (mkGeminiImagePart (mkInlineData "text/plain" (Some "a"))).
Proof.
  destruct (image_part_data_edges
              (mkFileWithPreview "id-t" (mkFile "t.txt" "text/plain")
                 (Some "data:text/plain,a,b"))
              "data:text/plain,a,b" eq_refl) as (_ & Hseg).
  apply (Hseg "data:text/plain" "a" "b"); reflexivity.
Defined.

(** X17.  An upload into a full collection changes nothing: with 10 images
    stored, the state after a batch is the state before it, whatever the
    batch holds. *)
Theorem upload_into_full_collection :
  forall (st : AppState) (files : list File) (completions : list Completion),
    List.length (uploadedImages st) = 10 ->
    Permutation (map done_file completions) files ->
    handleImageUpload (Some files) completions st = st
    /\ uploadDisabled st = true.
Proof.
  intros st files completions Hfull HP. split.
  - destruct files as [|f fs].
    + now apply handleImageUpload_empty.
    + rewrite handleImageUpload_nonempty by (assumption || discriminate).
      rewrite firstn_app_keep by lia.
      rewrite Hfull. unfold firstn at 1. cbn [Nat.sub]. rewrite app_nil_r.
      apply app_state_eta.
  - unfold uploadDisabled. rewrite Hfull. apply orb_true_r.
Qed.

Lemma upload_into_full_collection_witness :
  handleImageUpload (Some [photoB]) [doneB] tenImages = tenImages.
Proof.
  apply (upload_into_full_collection tenImages [photoB] [doneB]).
  - reflexivity.
  - apply Permutation_refl.
Defined.

(** X18.  Once every reader of a batch has fired [onloadend], and the
    batch fits under the cap together with what is stored, every completion
    has its image in the collection, the one of a failed read included,
    with the reader's result as preview; every file of the batch has an
    image there, and the collection has grown by the number of files.  As
    long as some reader of the batch has not finished, the state is not
    written at all. *)
Theorem handleImageUpload_failed_reads :
  forall (st : AppState) (files : list File) (completions : list Completion),
    Permutation (map done_file completions) files ->
    List.length (uploadedImages st) + List.length files <= 10 ->
    let st' := handleImageUpload (Some files) completions st in
    (forall c, In c completions ->
       In (mkFileWithPreview (uuid c) (done_file c) (reader_result c))
          (uploadedImages st'))
    /\ (forall f, In f files -> In f (map file (uploadedImages st')))
    /\ List.length (uploadedImages st') =
         List.length (uploadedImages st) + List.length files
    /\ (forall finished pending,
          completions = finished ++ pending -> pending <> [] ->
          handleImageUpload (Some files) finished st = st).
Proof.
  intros st files completions HP Hroom st'.
  pose proof (completions_count files completions HP) as Hcount.
  assert (Hall : uploadedImages st' = uploadedImages st ++ map image_of completions).
  { unfold st'. rewrite handleImageUpload_complete by (assumption || lia).
    apply firstn_all2. rewrite length_app, length_map. lia. }
  repeat split.
  - intros c Hc. rewrite Hall. apply in_or_app. right.
    apply (in_map image_of completions c Hc).
  - intros f Hf. rewrite Hall, map_app, map_map. apply in_or_app. right.
    apply (Permutation_in f (Permutation_sym HP) Hf).
  - rewrite Hall, length_app, length_map. lia.
  - intros finished pending Hsplit Hpending.
    unfold handleImageUpload.
    rewrite fold_onloadend_waits; [reflexivity|].
    rewrite Hsplit, length_app in Hcount. simpl.
    destruct pending; [congruence | simpl in Hcount; lia].
Qed.

Lemma handleImageUpload_failed_reads_witness :
  In (mkFileWithPreview "id-a" photoA None)
     (uploadedImages
        (handleImageUpload (Some [photoA; photoB]) [doneB; failedA] initialState))
  /\ handleImageUpload (Some [photoA; photoB]) [doneB] initialState = initialState.
Proof.
  destruct (handleImageUpload_failed_reads initialState
              [photoA; photoB] [doneB; failedA]) as (Himg & _ & _ & Hwait).
  - apply perm_swap.
  - simpl. lia.
  - split.
    + apply (Himg failedA). right. left. reflexivity.
    + apply (Hwait [doneB] [failedA]); [reflexivity | discriminate].
Defined.
